(** * Locale switching of the Next.js boilerplate

    A shallow embedding of [src/i18n/routing.ts] (the locale registry) and of
    [src/features/language-switcher/language-switcher.tsx] (the switch
    handler), together with a model of the browser facilities the handler
    calls: the [document.cookie] setter and [location.reload]. *)

From Stdlib Require Import ZArith Ascii String List Bool Lia.
From Stdlib Require Import DecimalString DecimalPos DecimalZ.
From stdpp Require Import gmap strings fin_maps.
Import ListNotations.

Local Open Scope string_scope.
Local Open Scope Z_scope.

(** ** The registry: [src/i18n/routing.ts] *)

Module Routing.

(** The object handed to [defineRouting]. *)
Record Config := {
  locales : list string;
  defaultLocale : string;
  localePrefix : string;
}.

(** [export const routing = defineRouting({...})] *)
Definition routing : Config := {|
  locales := ["en"; "zh"; "es"; "id"];
  defaultLocale := "en";
  localePrefix := "never";
|}.

(** [Array.prototype.includes] on a list of strings. *)
Definition includes (xs : list string) (x : string) : bool :=
  existsb (String.eqb x) xs.

End Routing.

(** ** Cookie strings

    The handler assigns a set-cookie-string to [document.cookie].  What the
    browser makes of such a string is fixed by RFC 6265, section 5.2; the
    part of that algorithm which concerns the attributes the handler writes
    ([Path], [Max-Age], [SameSite]) and [HttpOnly] is transcribed here.
    Attributes with other names are skipped, as the RFC prescribes for
    attributes a user agent does not recognise.  [Expires] is not read:
    every cookie of this program carries a [Max-Age], which takes
    precedence.  [Domain] and [Secure] are not modelled; the handler writes
    neither, and they can only come in through an argument that itself
    contains a semicolon. *)

Module Cookie.

Definition is_ws (a : ascii) : bool :=
  Ascii.eqb a " "%char || Ascii.eqb a "009"%char.

Fixpoint ltrim (s : string) : string :=
  match s with
  | EmptyString => EmptyString
  | String a s' => if is_ws a then ltrim s' else s
  end.

Fixpoint rtrim (s : string) : string :=
  match s with
  | EmptyString => EmptyString
  | String a s' =>
      match rtrim s' with
      | EmptyString => if is_ws a then EmptyString else String a EmptyString
      | r => String a r
      end
  end.

Definition trim (s : string) : string := rtrim (ltrim s).

(** Every character of [s] satisfies [P]. *)
Fixpoint every (P : ascii -> bool) (s : string) : bool :=
  match s with
  | EmptyString => true
  | String a s' => P a && every P s'
  end.

(** The pieces of [s] between the occurrences of [c]; never empty. *)
Fixpoint split_on (c : ascii) (s : string) : list string :=
  match s with
  | EmptyString => [EmptyString]
  | String a s' =>
      if Ascii.eqb a c then EmptyString :: split_on c s'
      else match split_on c s' with
           | [] => [String a EmptyString]
           | h :: t => String a h :: t
           end
  end.

(** [s] cut at the first occurrence of [c], when there is one. *)
Fixpoint cut_at (c : ascii) (s : string) : option (string * string) :=
  match s with
  | EmptyString => None
  | String a s' =>
      if Ascii.eqb a c then Some (EmptyString, s')
      else match cut_at c s' with
           | Some (l, r) => Some (String a l, r)
           | None => None
           end
  end.

Definition lower (a : ascii) : ascii :=
  let n := N_of_ascii a in
  if (65 <=? n)%N && (n <=? 90)%N then ascii_of_N (n + 32) else a.

Fixpoint lowercase (s : string) : string :=
  match s with
  | EmptyString => EmptyString
  | String a s' => String (lower a) (lowercase s')
  end.

Definition digit_of (a : ascii) : option Z :=
  let n := Z.of_N (N_of_ascii a) in
  if (48 <=? n) && (n <=? 57) then Some (n - 48) else None.

Fixpoint digits_from (acc : Z) (s : string) : option Z :=
  match s with
  | EmptyString => Some acc
  | String a s' =>
      match digit_of a with
      | Some d => digits_from (10 * acc + d) s'
      | None => None
      end
  end.

(** The characters of a printed integer: digits and the minus sign. *)
Definition is_num (a : ascii) : bool :=
  Ascii.eqb a "-"%char || bool_decide (is_Some (digit_of a)).

(** RFC 6265, 5.2.2: a [Max-Age] value is a digit or a minus sign followed
    by digits only; anything else makes the attribute void. *)
Definition delta_seconds (s : string) : option Z :=
  match s with
  | EmptyString => None
  | String a s' =>
      if Ascii.eqb a "-"%char then Z.opp <$> digits_from 0 s'
      else digits_from 0 s
  end.

Inductive SameSite := Strict | Lax | NoRestriction.

Definition same_site_of (s : string) : option SameSite :=
  let v := lowercase s in
  if String.eqb v "strict" then Some Strict
  else if String.eqb v "lax" then Some Lax
  else if String.eqb v "none" then Some NoRestriction
  else None.

Record Attributes := {
  path : option string;
  max_age : option Z;
  same_site : option SameSite;
  http_only : bool;
}.

Definition no_attributes : Attributes :=
  {| path := None; max_age := None; same_site := None; http_only := false |}.

(** One cookie-av: name and value around the first [=], both trimmed; a
    later attribute of the same name replaces an earlier one. *)
Definition attribute (acc : Attributes) (av : string) : Attributes :=
  let '(n, v) := match cut_at "="%char av with
                 | Some (n, v) => (trim n, trim v)
                 | None => (trim av, EmptyString)
                 end in
  let n := lowercase n in
  if String.eqb n "path" then
    {| path := match v with
               | String "/"%char _ => Some v
               | _ => None
               end;
       max_age := max_age acc; same_site := same_site acc;
       http_only := http_only acc |}
  else if String.eqb n "max-age" then
    match delta_seconds v with
    | Some d =>
        {| path := path acc; max_age := Some d; same_site := same_site acc;
           http_only := http_only acc |}
    | None => acc
    end
  else if String.eqb n "samesite" then
    {| path := path acc; max_age := max_age acc;
       same_site := same_site_of v; http_only := http_only acc |}
  else if String.eqb n "httponly" then
    {| path := path acc; max_age := max_age acc; same_site := same_site acc;
       http_only := true |}
  else acc.

Definition attributes (avs : list string) : Attributes :=
  fold_left attribute avs no_attributes.

Record Parsed := {
  name : string;
  value : string;
  attrs : Attributes;
}.

(** RFC 6265, 5.2: the name-value pair ends at the first [;]; without a
    [=] in it, or with an empty name, the whole string is ignored. *)
Definition parse (s : string) : option Parsed :=
  match split_on ";"%char s with
  | [] => None
  | nv :: avs =>
      match cut_at "="%char nv with
      | None => None
      | Some (n, v) =>
          let n := trim n in
          if String.eqb n EmptyString then None
          else Some {| name := n; value := trim v; attrs := attributes avs |}
      end
  end.

End Cookie.

(** ** The browser state the handler acts on *)

Module Browser.

(** A cookie as the jar keeps it.  [expires = None] is a session cookie;
    [stored_path = None] stands for the default path of the document. *)
Record Stored := {
  stored_value : string;
  stored_path : option string;
  expires : option Z;
  stored_same_site : option Cookie.SameSite;
}.

Inductive Event :=
| CookieAssigned (s : string)
| Reloaded.

(** The heap of the page: the imported [routing] object, the cookie jar of
    the site (one entry per cookie name: every cookie of this program is
    written with the same path), the wall clock in seconds, and the
    observable effects so far, oldest first. *)
Record World := {
  registry : Routing.Config;
  jar : gmap string Stored;
  clock : Z;
  events : list Event;
}.

Definition with_jar (j : gmap string Stored) (w : World) : World :=
  {| registry := registry w; jar := j; clock := clock w; events := events w |}.

Definition emit (e : Event) (w : World) : World :=
  {| registry := registry w; jar := jar w; clock := clock w;
     events := (events w ++ [e])%list |}.

(** Time going by, [d] seconds of it. *)
Definition elapse (d : Z) (w : World) : World :=
  {| registry := registry w; jar := jar w; clock := clock w + d;
     events := events w |}.

(** RFC 6265, 5.3: the expiry time is now plus [Max-Age]; a cookie whose
    [Max-Age] is zero or negative expires at once, which removes the cookie
    of that name; a new cookie replaces the old one of its name. *)
Definition store (c : Cookie.Parsed) (w : World) : World :=
  let a := Cookie.attrs c in
  let entry e := {| stored_value := Cookie.value c;
                    stored_path := Cookie.path a;
                    expires := e;
                    stored_same_site := Cookie.same_site a |} in
  match Cookie.max_age a with
  | Some d =>
      if d <=? 0 then with_jar (delete (Cookie.name c) (jar w)) w
      else with_jar (<[Cookie.name c := entry (Some (clock w + d))]> (jar w)) w
  | None => with_jar (<[Cookie.name c := entry None]> (jar w)) w
  end.

(** [document.cookie = s]: a string that does not parse is ignored, and so
    is a cookie that asks for [HttpOnly] (5.3, step 10: scripts are a
    non-HTTP API).  Browsers refuse more than that (a control character in
    the string, a cookie over 4096 bytes, [Secure] on a plain origin, a
    [Domain] that is not the host's); those refusals are not modelled, and
    what is said of the jar is said for the locales of the registry and for
    arguments no browser refuses, or else holds whether the cookie is
    refused or not. *)
Definition set_document_cookie (s : string) (w : World) : World :=
  let w := emit (CookieAssigned s) w in
  match Cookie.parse s with
  | Some c => if Cookie.http_only (Cookie.attrs c) then w else store c w
  | None => w
  end.

(** [globalThis.location.reload()]: the page is fetched and rendered again;
    the jar outlives it. *)
Definition location_reload (w : World) : World := emit Reloaded w.

(** A jar entry counts until its expiry time is reached. *)
Definition alive (now : Z) (c : Stored) : bool :=
  match expires c with
  | Some e => now <? e
  | None => true
  end.

(** The jar entry that a cookie of value [locale], path [/], same-site lax
    and a lifetime of [ttl] seconds leaves when stored at time [now]. *)
Definition preference (locale : string) (ttl now : Z) : Stored :=
  {| stored_value := locale; stored_path := Some "/";
     expires := Some (now + ttl); stored_same_site := Some Cookie.Lax |}.

(** The value kept under a cookie name, expired or not. *)
Definition persisted (n : string) (w : World) : option string :=
  stored_value <$> jar w !! n.

End Browser.

(** ** The switcher: [language-switcher.tsx] *)

Module LanguageSwitcher.
Import Routing Browser.

Definition one_year : Z := 365 * 24 * 60 * 60.

(** The template literal assigned to [document.cookie]. *)
Definition cookie_string (language : string) : string :=
  "NEXT_LOCALE=" +:+ language +:+ "; path=/; max-age=31536000; SameSite=Lax".

Definition handleLanguageChange (language : string) (w : World) : World :=
  let w := set_document_cookie (cookie_string language) w in
  location_reload w.

(** One [<Button>] of the switcher. *)
Record Button := {
  key : string;
  onClick : World -> World;
  variant : string;
  label : string;
}.

(** [routing.locales.map((language) => <Button ... />)], with [locale] the
    value of [useLocale()]; the label is the message key given to [t]. *)
Definition buttons (locale : string) (w : World) : list Button :=
  map (fun language =>
         {| key := language;
            onClick := handleLanguageChange language;
            variant := if String.eqb locale language then "default"
                       else "outline";
            label := "languages." +:+ language |})
      (locales (registry w)).

End LanguageSwitcher.

(** ** The service of the specification

    The specification describes the switcher as a service of four parts:
    Registry, Resolver, Persistence Adapter and Switch Controller.  The
    Registry is [routing] and the Switch Controller is
    [handleLanguageChange]; the other two are not in the sources. *)

Module Service.
Import Routing Browser LanguageSwitcher.

Definition supportedLocales (w : World) : list string := locales (registry w).

Definition defaultLocale (w : World) : string :=
  Routing.defaultLocale (registry w).

Definition switchTo (locale : string) (w : World) : World :=
  handleLanguageChange locale w.

(** JavaScript's rendering of an integer inside a template literal (for an
    integer below 10^21 in size: the plain decimal digits). *)
Definition decimal (z : Z) : string := NilEmpty.string_of_int (Z.to_int z).

(** Modelled from the spec: the Persistence Adapter's
    [write(locale, ttlSeconds)] (section 4.3), of which the sources have only
    the instance at one year, inlined in [handleLanguageChange]: the same
    assignment to [document.cookie], with the horizon a parameter. *)
Definition write (locale : string) (ttlSeconds : Z) (w : World) : World :=
  set_document_cookie
    ("NEXT_LOCALE=" +:+ locale +:+ "; path=/; max-age=" +:+ decimal ttlSeconds
     +:+ "; SameSite=Lax") w.

(** Modelled from the spec: the Persistence Adapter's [read()] (section
    4.3), missing from the sources: the stored value if present, within its
    lifetime and of the shape of a locale code, else absent.  The spec leaves
    the shape open, so it is the parameter [isLocaleCode]. *)
Definition read (isLocaleCode : string -> bool) (w : World) : option string :=
  match jar w !! "NEXT_LOCALE" with
  | Some c =>
      if alive (clock w) c && isLocaleCode (stored_value c)
      then Some (stored_value c)
      else None
  | None => None
  end.

(** Modelled from the spec: the Locale Resolver's [resolve(storedPreference)]
    (section 4.2), missing from the sources: the preference if it is present
    and a member of the supported set, else the default locale. *)
Definition resolve (w : World) (storedPreference : option string) : string :=
  match storedPreference with
  | Some l => if includes (supportedLocales w) l then l else defaultLocale w
  | None => defaultLocale w
  end.

(** The operations that act on the world. *)
Inductive Op :=
| Switch (locale : string)
| Persist (locale : string) (ttlSeconds : Z)
| Wait (d : Z).

Definition step (w : World) (o : Op) : World :=
  match o with
  | Switch l => switchTo l w
  | Persist l t => write l t w
  | Wait d => elapse d w
  end.

Definition run (ops : list Op) (w : World) : World := fold_left step ops w.

(** The page as first loaded. *)
Definition initial : World :=
  {| registry := routing; jar := ∅; clock := 0; events := [] |}.

End Service.

(** ** The visitor at the switcher *)

Module Interaction.
Import Routing Browser LanguageSwitcher.

(** The buttons drawn with [variant="default"], that is the highlighted
    ones. *)
Definition highlighted (locale : string) (w : World) : list Button :=
  List.filter (fun b => String.eqb (variant b) "default") (buttons locale w).

(** What a visitor does: click the [i]-th button of the switcher while the
    page shows [locale], or let [d] seconds pass. *)
Inductive Gesture :=
| Click (locale : string) (i : nat)
| Pause (d : Z).

(** A click runs the [onClick] of the button at that place; where the
    switcher has no button there is nothing to click. *)
Definition click (locale : string) (i : nat) (w : World) : World :=
  match nth_error (buttons locale w) i with
  | Some b => onClick b w
  | None => w
  end.

Definition gesture (w : World) (g : Gesture) : World :=
  match g with
  | Click locale i => click locale i w
  | Pause d => elapse d w
  end.

Definition play (gs : list Gesture) (w : World) : World :=
  fold_left gesture gs w.

(** The characters a cookie value is made of (RFC 6265, 4.1.1,
    cookie-octet): printable US-ASCII but the blank, the double quote, the
    comma, the semicolon and the backslash. *)
Definition is_cookie_octet (a : ascii) : bool :=
  let n := N_of_ascii a in
  ((n =? 33) || (35 <=? n) && (n <=? 43) || (45 <=? n) && (n <=? 58)
   || (60 <=? n) && (n <=? 91) || (93 <=? n) && (n <=? 126))%N.

(** An argument every browser stores as it stands: not empty, made of
    cookie-octets, and short enough for the whole assignment to fit the 4096
    bytes a user agent has to accept for one cookie (RFC 6265, 6.1).
    Browsers turn down more than [set_document_cookie] does (control
    characters, oversized cookies, [Secure] on a plain origin, a foreign
    [Domain]); none of that can happen for such an argument. *)
Definition storable (s : string) : bool :=
  Cookie.every is_cookie_octet s && negb (String.eqb s "")
  && (Z.of_nat (String.length (cookie_string s)) <=? 4096).

(** The two effects of one switch to [l]. *)
Definition switch_effects (l : string) : list Event :=
  [CookieAssigned (cookie_string l); Reloaded].

End Interaction.

Import Routing Browser LanguageSwitcher Service.
Import Interaction.

Example parse_sample :
  Cookie.parse "NEXT_LOCALE=zh; path=/; max-age=31536000; SameSite=Lax"
  = Some {| Cookie.name := "NEXT_LOCALE"; Cookie.value := "zh";
            Cookie.attrs := {| Cookie.path := Some "/";
                               Cookie.max_age := Some 31536000;
                               Cookie.same_site := Some Cookie.Lax;
                               Cookie.http_only := false |} |}.
Proof. vm_compute. reflexivity. Qed.

Example switch_is_write_then_reload language w :
  handleLanguageChange language w = location_reload (write language one_year w).
Proof. reflexivity. Qed.

Example scenario_es :
  read (includes (locales routing)) (switchTo "es" initial) = Some "es".
Proof. vm_compute. reflexivity. Qed.

(** The handler takes any string: a locale the registry does not have is
    stored all the same. *)
Example switch_unsupported :
  persisted "NEXT_LOCALE" (handleLanguageChange "fr" initial) = Some "fr".
Proof. vm_compute. reflexivity. Qed.

(** A semicolon in the argument ends the value and starts an attribute. *)
Example switch_semicolon :
  Cookie.value <$> Cookie.parse (cookie_string "en; Secure") = Some "en".
Proof. vm_compute. reflexivity. Qed.

Example scenario_fr :
  resolve initial (Some "fr") = "en" /\ resolve initial (Some "zh") = "zh" /\
  resolve initial None = "en".
Proof. repeat split. Qed.

(** The switcher shows one button per registered locale, in the order of the
    registry, and each button switches to the locale it is keyed by. *)
Lemma buttons_offer_registry locale w :
  map key (buttons locale w) = locales (registry w) /\
  Forall (fun b => onClick b = handleLanguageChange (key b)) (buttons locale w).
Proof.
  unfold buttons. split.
  - rewrite map_map. simpl. apply map_id.
  - induction (locales (registry w)) as [|l ls IH]; simpl; constructor;
      [reflexivity | exact IH].
Qed.

(** ** What the operations leave alone *)

Section Frame.

Lemma includes_In xs x : includes xs x = true <-> In x xs.
Proof.
  unfold includes. rewrite existsb_exists. split.
  - intros (y & Hy & Heq). apply String.eqb_eq in Heq. now subst.
  - intros Hin. exists x. split; [assumption | apply String.eqb_refl].
Qed.

Lemma includes_not_In xs x : includes xs x = false <-> ~ In x xs.
Proof.
  rewrite <- includes_In. destruct (includes xs x); split; congruence.
Qed.

Lemma registry_store c w : registry (store c w) = registry w.
Proof.
  unfold store. destruct (Cookie.max_age _) as [d|]; [destruct (d <=? 0)|];
    reflexivity.
Qed.

Lemma events_store c w : events (store c w) = events w.
Proof.
  unfold store. destruct (Cookie.max_age _) as [d|]; [destruct (d <=? 0)|];
    reflexivity.
Qed.

Lemma clock_store c w : clock (store c w) = clock w.
Proof.
  unfold store. destruct (Cookie.max_age _) as [d|]; [destruct (d <=? 0)|];
    reflexivity.
Qed.

Lemma registry_set_document_cookie s w :
  registry (set_document_cookie s w) = registry w.
Proof.
  unfold set_document_cookie. destruct (Cookie.parse s) as [c|]; [|reflexivity].
  destruct (Cookie.http_only _); [reflexivity|]. now rewrite registry_store.
Qed.

Lemma events_set_document_cookie s w :
  events (set_document_cookie s w) = (events w ++ [CookieAssigned s])%list.
Proof.
  unfold set_document_cookie. destruct (Cookie.parse s) as [c|]; [|reflexivity].
  destruct (Cookie.http_only _); [reflexivity|]. now rewrite events_store.
Qed.

Lemma clock_set_document_cookie s w :
  clock (set_document_cookie s w) = clock w.
Proof.
  unfold set_document_cookie. destruct (Cookie.parse s) as [c|]; [|reflexivity].
  destruct (Cookie.http_only _); [reflexivity|]. now rewrite clock_store.
Qed.

Lemma registry_step w o : registry (step w o) = registry w.
Proof.
  destruct o as [l | l t | d]; simpl.
  - unfold switchTo, handleLanguageChange, location_reload. simpl.
    apply registry_set_document_cookie.
  - apply registry_set_document_cookie.
  - reflexivity.
Qed.

Lemma registry_run ops : forall w, registry (run ops w) = registry w.
Proof.
  unfold run. induction ops as [|o ops IH]; intros w; simpl; [reflexivity|].
  rewrite IH. apply registry_step.
Qed.

End Frame.

(** ** Registry and resolver *)

Section Registry.

(** C9. The registry is the ordered list en, zh, es, id with default en, the
    default is one of the supported locales, and it stays so whatever
    sequence of operations runs: no operation changes the registry. *)
Theorem registry_invariant :
  (forall ops w, registry (run ops w) = registry w) /\
  (forall ops,
     let w := run ops initial in
     supportedLocales w = ["en"; "zh"; "es"; "id"] /\
     defaultLocale w = "en" /\
     In (defaultLocale w) (supportedLocales w)).
Proof.
  split; [intros; apply registry_run|].
  intros ops w. unfold supportedLocales, defaultLocale. subst w.
  rewrite registry_run. simpl. repeat split. now left.
Qed.

(** C1. A preference that is absent, or that names a locale outside the
    supported set, resolves to the default locale en; and whatever the
    preference is, the resolved locale is a supported one. *)
Theorem resolve_unsupported ops (V : option string) :
  match V with
  | Some l => ~ In l ["en"; "zh"; "es"; "id"]
  | None => True
  end ->
  let w := run ops initial in
  resolve w V = defaultLocale w /\ resolve w V = "en" /\
  forall V', In (resolve w V') ["en"; "zh"; "es"; "id"].
Proof.
  intros HV w.
  assert (Hreg : registry w = routing) by apply registry_run.
  assert (Hen : resolve w V = "en").
  { unfold resolve, supportedLocales, defaultLocale. rewrite Hreg.
    destruct V as [l|]; [|reflexivity].
    apply includes_not_In in HV. simpl in *. now rewrite HV. }
  repeat split; [now rewrite Hen; unfold defaultLocale; rewrite Hreg | assumption |].
  intros [l|]; unfold resolve, supportedLocales, defaultLocale; rewrite Hreg;
    [|now left].
  destruct (includes (locales routing) l) eqn:E; [|now left].
  now apply includes_In in E.
Qed.

Lemma resolve_unsupported_witness :
  resolve (run [Switch "zh"] initial) (Some "fr") = "en" /\
  resolve (run [] initial) None = "en".
Proof.
  split.
  - apply (resolve_unsupported [Switch "zh"] (Some "fr")).
    simpl. intros H. repeat destruct H as [H|H]; discriminate || assumption.
  - apply (resolve_unsupported [] None). exact I.
Defined.

(** C2. A supported locale resolves to itself, the default locale en
    included. *)
Theorem resolve_supported ops (L : string) :
  In L ["en"; "zh"; "es"; "id"] ->
  resolve (run ops initial) (Some L) = L.
Proof.
  intros HL. unfold resolve, supportedLocales.
  rewrite registry_run. apply includes_In in HL. simpl in *. now rewrite HL.
Qed.

Lemma resolve_supported_witness :
  resolve (run [Wait 5] initial) (Some "en") = "en" /\
  resolve (run [] initial) (Some "id") = "id".
Proof.
  split.
  - apply (resolve_supported [Wait 5] "en"). simpl. tauto.
  - apply (resolve_supported [] "id"). simpl. tauto.
Defined.

End Registry.

(** ** Reading set-cookie-strings *)

Section Strings.
Import Cookie.

Lemma split_on_nonempty c s : split_on c s <> [].
Proof.
  destruct s as [|a s]; simpl; [discriminate|].
  destruct (Ascii.eqb a c); [discriminate|].
  destruct (split_on c s); discriminate.
Qed.

Lemma split_on_cons c s : split_on c s = hd "" (split_on c s) :: tl (split_on c s).
Proof.
  pose proof (split_on_nonempty c s). now destruct (split_on c s).
Qed.

Lemma split_on_app c a b :
  split_on c (a +:+ String c b) = (split_on c a ++ split_on c b)%list.
Proof.
  induction a as [|x a IH]; simpl.
  - now rewrite Ascii.eqb_refl.
  - destruct (Ascii.eqb x c); [now rewrite IH|].
    rewrite IH, (split_on_cons c a). reflexivity.
Qed.

Lemma split_on_prefix c p s :
  every (fun a => negb (Ascii.eqb a c)) p = true ->
  split_on c (p +:+ s) = (p +:+ hd "" (split_on c s)) :: tl (split_on c s).
Proof.
  induction p as [|x p IH]; simpl; intros Hp.
  - apply split_on_cons.
  - apply andb_prop in Hp as [Hx Hp]. apply negb_true_iff in Hx.
    rewrite Hx, (IH Hp). reflexivity.
Qed.

Lemma split_on_every P c s :
  P c = false -> every P s = true -> split_on c s = [s].
Proof.
  intros Hc. induction s as [|x s IH]; simpl; intros Hs; [reflexivity|].
  apply andb_prop in Hs as [Hx Hs].
  destruct (Ascii.eqb_spec x c) as [->|_]; [congruence|].
  now rewrite (IH Hs).
Qed.

Lemma cut_at_prefix c p s :
  every (fun a => negb (Ascii.eqb a c)) p = true ->
  cut_at c (p +:+ String c s) = Some (p, s).
Proof.
  induction p as [|x p IH]; simpl; intros Hp.
  - now rewrite Ascii.eqb_refl.
  - apply andb_prop in Hp as [Hx Hp]. apply negb_true_iff in Hx.
    now rewrite Hx, (IH Hp).
Qed.

Lemma rtrim_every P s :
  (forall a, P a = true -> is_ws a = false) ->
  every P s = true -> rtrim s = s.
Proof.
  intros HP. induction s as [|x s IH]; simpl; intros Hs; [reflexivity|].
  apply andb_prop in Hs as [Hx Hs]. rewrite (IH Hs), (HP _ Hx).
  now destruct s.
Qed.

Lemma trim_every P s :
  (forall a, P a = true -> is_ws a = false) ->
  every P s = true -> trim s = s.
Proof.
  intros HP Hs. unfold trim.
  assert (Hl : ltrim s = s).
  { destruct s as [|x s]; simpl in *; [reflexivity|].
    apply andb_prop in Hs as [Hx _]. now rewrite (HP _ Hx). }
  rewrite Hl. now apply (rtrim_every P).
Qed.

Lemma is_num_not_ws a : is_num a = true -> is_ws a = false.
Proof.
  destruct a as [[] [] [] [] [] [] [] []]; vm_compute; congruence.
Qed.

Lemma every_num_uint d : every is_num (NilEmpty.string_of_uint d) = true.
Proof. induction d; simpl; auto. Qed.

Lemma every_num_decimal z : every is_num (decimal z) = true.
Proof.
  unfold decimal. destruct z; simpl; auto using every_num_uint.
Qed.

Lemma digits_from_uint d : forall acc,
  digits_from (Z.pos acc) (NilEmpty.string_of_uint d)
  = Some (Z.pos (Pos.of_uint_acc d acc)).
Proof.
  induction d; intros acc; simpl; try reflexivity;
    change (digits_from ?k _) with (digits_from k (NilEmpty.string_of_uint d));
    match goal with
    | |- digits_from ?k _ = Some (Z.pos (Pos.of_uint_acc _ ?p)) =>
        replace k with (Z.pos p) by lia
    end; apply IHd.
Qed.

Lemma digits_from_zero d :
  digits_from 0 (NilEmpty.string_of_uint d) = Some (Z.of_N (Pos.of_uint d)).
Proof.
  induction d; simpl; try reflexivity; try assumption;
    match goal with
    | |- digits_from ?k _ = Some (Z.pos (Pos.of_uint_acc _ ?p)) =>
        replace k with (Z.pos p) by lia
    end; apply digits_from_uint.
Qed.

Lemma delta_seconds_uint d :
  d <> Decimal.Nil ->
  delta_seconds (NilEmpty.string_of_uint d) = Some (Z.of_N (Pos.of_uint d)).
Proof.
  intros Hd. rewrite <- digits_from_zero.
  destruct d; [congruence | reflexivity ..].
Qed.

(** Printing an integer and reading it back as a [Max-Age] gives the
    integer. *)
Lemma delta_seconds_decimal z : delta_seconds (decimal z) = Some z.
Proof.
  unfold decimal. destruct z as [|p|p].
  - reflexivity.
  - simpl. rewrite delta_seconds_uint by apply Unsigned.to_uint_nonnil.
    now rewrite DecimalPos.Unsigned.of_to.
  - simpl. rewrite digits_from_zero, DecimalPos.Unsigned.of_to. reflexivity.
Qed.

End Strings.

Section Parsing.
Import Cookie.

Lemma attribute_path acc :
  attribute acc " path=/"
  = {| path := Some "/"; max_age := max_age acc; same_site := same_site acc;
       http_only := http_only acc |}.
Proof. reflexivity. Qed.

Lemma attribute_same_site acc :
  attribute acc " SameSite=Lax"
  = {| path := path acc; max_age := max_age acc; same_site := Some Lax;
       http_only := http_only acc |}.
Proof. reflexivity. Qed.

Lemma attribute_max_age acc D d :
  every is_num D = true -> delta_seconds D = Some d ->
  attribute acc (" max-age=" +:+ D)
  = {| path := path acc; max_age := Some d; same_site := same_site acc;
       http_only := http_only acc |}.
Proof.
  intros HD Hd. unfold attribute.
  change (" max-age=" +:+ D) with (" max-age" +:+ String "="%char D).
  rewrite cut_at_prefix by reflexivity.
  rewrite (trim_every is_num D is_num_not_ws HD).
  change (lowercase (trim " max-age")) with "max-age".
  simpl. now rewrite Hd.
Qed.

(** The string [write] assigns, read the way the browser reads it. *)
Lemma parse_write_string language D d :
  every is_num D = true -> delta_seconds D = Some d ->
  parse ("NEXT_LOCALE=" +:+ language +:+ "; path=/; max-age=" +:+ D
         +:+ "; SameSite=Lax")
  = Some {| name := "NEXT_LOCALE";
            value := trim (hd "" (split_on ";" language));
            attrs := {| path := Some "/"; max_age := Some d;
                        same_site := Some Lax;
                        http_only :=
                          http_only (attributes (tl (split_on ";" language)))
                     |} |}.
Proof.
  intros HD Hd. unfold parse.
  rewrite (split_on_prefix ";" "NEXT_LOCALE=") by reflexivity.
  change (language +:+ "; path=/; max-age=" +:+ D +:+ "; SameSite=Lax")
    with (language +:+ String ";" (" path=/" +:+
            String ";" (" max-age=" +:+ D +:+ String ";" " SameSite=Lax"))).
  rewrite split_on_app, (split_on_app ";" " path=/").
  replace (" max-age=" +:+ D +:+ String ";" " SameSite=Lax")
    with ((" max-age=" +:+ D) +:+ String ";" " SameSite=Lax") by reflexivity.
  rewrite split_on_app.
  rewrite (split_on_prefix ";" " max-age=" D) by reflexivity.
  rewrite (split_on_every is_num ";" D) by (reflexivity || assumption).
  destruct (split_on ";" language) as [|h t] eqn:E;
    [now apply split_on_nonempty in E|].
  simpl hd. simpl tl.
  change ("NEXT_LOCALE=" +:+ ?h) with ("NEXT_LOCALE" +:+ String "="%char h).
  rewrite cut_at_prefix by reflexivity.
  change (trim "NEXT_LOCALE") with "NEXT_LOCALE". simpl String.eqb.
  do 3 f_equal. unfold attributes. rewrite fold_left_app. simpl fold_left.
  rewrite attribute_same_site, (attribute_max_age _ D d HD Hd), attribute_path.
  reflexivity.
Qed.

End Parsing.

(** ** The cookie jar after a write *)

Section Jar.
Import Cookie.

Lemma supported_plain L :
  In L ["en"; "zh"; "es"; "id"] ->
  split_on ";" L = [L] /\ trim L = L.
Proof.
  intros H. repeat destruct H as [<-|H]; try (split; reflexivity). destruct H.
Qed.

Lemma jar_write L ttl w :
  In L ["en"; "zh"; "es"; "id"] ->
  jar (write L ttl w)
  = if ttl <=? 0 then delete "NEXT_LOCALE" (jar w)
    else <["NEXT_LOCALE" := preference L ttl (clock w)]> (jar w).
Proof.
  intros HL. destruct (supported_plain L HL) as [Hs Ht].
  unfold write, set_document_cookie.
  rewrite (parse_write_string L (decimal ttl) ttl)
    by (apply every_num_decimal || apply delta_seconds_decimal).
  rewrite Hs. simpl. rewrite Ht. unfold store. simpl.
  destruct (ttl <=? 0); reflexivity.
Qed.

Lemma clock_write L ttl w : clock (write L ttl w) = clock w.
Proof. apply clock_set_document_cookie. Qed.

Lemma jar_switchTo L w :
  In L ["en"; "zh"; "es"; "id"] ->
  jar (switchTo L w)
  = <["NEXT_LOCALE" := preference L 31536000 (clock w)]> (jar w).
Proof.
  intros HL. unfold switchTo, handleLanguageChange, location_reload. simpl.
  apply (jar_write L 31536000 w HL).
Qed.

Lemma clock_switchTo language w : clock (switchTo language w) = clock w.
Proof.
  unfold switchTo, handleLanguageChange, location_reload. simpl.
  apply clock_set_document_cookie.
Qed.

Lemma events_switchTo language w :
  events (switchTo language w)
  = (events w ++ [CookieAssigned (cookie_string language); Reloaded])%list.
Proof.
  unfold switchTo, handleLanguageChange, location_reload. simpl.
  rewrite events_set_document_cookie, <- app_assoc. reflexivity.
Qed.

Lemma parse_cookie_string language :
  parse (cookie_string language)
  = Some {| name := "NEXT_LOCALE";
            value := trim (hd "" (split_on ";" language));
            attrs := {| path := Some "/"; max_age := Some 31536000;
                        same_site := Some Lax;
                        http_only :=
                          http_only (attributes (tl (split_on ";" language)))
                     |} |}.
Proof. apply (parse_write_string language "31536000"); reflexivity. Qed.

End Jar.

(** ** The switch controller *)

Section Switch.
Import Cookie.

(** C3. A switch to a locale of the registry does two things and in this
    order.  First the assignment to the cookie: once it is done, the jar
    holds the locale under NEXT_LOCALE with a lifetime of one year, and
    nothing has been reloaded yet.  Then the reload, which is the last
    effect and leaves the jar as the write made it. *)
Theorem switch_writes_then_reloads (L : string) (w : World) :
  In L ["en"; "zh"; "es"; "id"] ->
  let written := set_document_cookie (cookie_string L) w in
  switchTo L w = location_reload written /\
  jar written = <["NEXT_LOCALE" := preference L one_year (clock w)]> (jar w) /\
  events written = (events w ++ [CookieAssigned (cookie_string L)])%list /\
  jar (switchTo L w) = jar written /\
  events (switchTo L w)
  = (events w ++ [CookieAssigned (cookie_string L); Reloaded])%list /\
  one_year = 31536000 /\
  (Cookie.max_age <$> (Cookie.attrs <$> Cookie.parse (cookie_string L)))
  = Some (Some one_year).
Proof.
  intros HL written. subst written.
  split; [reflexivity|]. split; [exact (jar_write L 31536000 w HL)|].
  split; [apply events_set_document_cookie|]. split; [reflexivity|].
  split; [apply events_switchTo|]. split; [reflexivity|].
  now rewrite parse_cookie_string.
Qed.

Lemma switch_writes_then_reloads_witness :
  jar (set_document_cookie (cookie_string "es") initial)
  = <["NEXT_LOCALE" := preference "es" one_year (clock initial)]> (jar initial)
  /\ events (switchTo "es" initial)
     = ([] ++ [CookieAssigned (cookie_string "es"); Reloaded])%list.
Proof.
  destruct (switch_writes_then_reloads "es" initial)
    as (_ & Hjar & _ & _ & Hev & _); [simpl; tauto|].
  split; [exact Hjar | exact Hev].
Defined.

(** C4. A write of a supported locale puts it under the one key NEXT_LOCALE,
    with path /, a lifetime of 31536000 seconds from the time of the write
    and same-site lax, and touches no other key; whatever string is written,
    the cookie the parsing rules of RFC 6265 read it as has that name and
    those three attributes. *)
Theorem write_key_and_attributes (L : string) (w : World) :
  In L ["en"; "zh"; "es"; "id"] ->
  jar (switchTo L w)
  = <["NEXT_LOCALE" := {| stored_value := L; stored_path := Some "/";
                          expires := Some (clock w + 31536000);
                          stored_same_site := Some Lax |}]> (jar w) /\
  (forall k, k <> "NEXT_LOCALE" -> jar (switchTo L w) !! k = jar w !! k) /\
  (forall s, exists v h,
     Cookie.parse (cookie_string s)
     = Some {| name := "NEXT_LOCALE"; value := v;
               attrs := {| path := Some "/"; max_age := Some 31536000;
                           same_site := Some Lax; http_only := h |} |}).
Proof.
  intros HL. rewrite (jar_switchTo L w HL). split; [reflexivity|]. split.
  - intros k Hk. now rewrite lookup_insert_ne.
  - intros s. rewrite parse_cookie_string. eauto.
Qed.

Lemma write_key_and_attributes_witness :
  jar (switchTo "zh" initial)
  = <["NEXT_LOCALE" := {| stored_value := "zh"; stored_path := Some "/";
                          expires := Some (clock initial + 31536000);
                          stored_same_site := Some Lax |}]> (jar initial).
Proof.
  apply (write_key_and_attributes "zh" initial). simpl. tauto.
Defined.

(** C6. Of two switches in a row the second one wins: afterwards the jar is
    what the second switch alone would have left, and the preference it
    holds is the second locale; a locale switched to twice stays. *)
Theorem last_write_wins (L1 L2 : string) (d : Z) (w : World) :
  In L1 ["en"; "zh"; "es"; "id"] ->
  In L2 ["en"; "zh"; "es"; "id"] ->
  persisted "NEXT_LOCALE" (switchTo L2 (elapse d (switchTo L1 w))) = Some L2 /\
  jar (switchTo L2 (elapse d (switchTo L1 w))) = jar (switchTo L2 (elapse d w)) /\
  persisted "NEXT_LOCALE" (switchTo L1 (switchTo L1 w)) = Some L1.
Proof.
  intros H1 H2. unfold persisted.
  rewrite !(jar_switchTo L2) by assumption.
  change (jar (elapse d ?x)) with (jar x).
  change (clock (elapse d ?x)) with (clock x + d).
  rewrite !(jar_switchTo L1), clock_switchTo by assumption.
  rewrite !insert_insert_eq, !lookup_insert_eq. repeat split.
Qed.

Lemma last_write_wins_witness :
  persisted "NEXT_LOCALE" (switchTo "es" (elapse 2 (switchTo "zh" initial)))
  = Some "es" /\
  persisted "NEXT_LOCALE" (switchTo "id" (switchTo "id" initial)) = Some "id".
Proof.
  split.
  - apply (last_write_wins "zh" "es" 2 initial); simpl; tauto.
  - apply (last_write_wins "id" "id" 0 initial); simpl; tauto.
Defined.

End Switch.

(** ** The persistence adapter *)

Section Adapter.
Import Cookie.

Variable isLocaleCode : string -> bool.

Lemma read_switchTo L w :
  read isLocaleCode (switchTo L w) = read isLocaleCode (write L one_year w).
Proof. reflexivity. Qed.

(** C8. A preference of a supported locale written with a horizon of zero
    reads as absent, and so does one whose horizon has gone by since the
    write; resolution then gives the default locale. *)
Theorem read_expired_absent (L : string) (w : World) :
  In L ["en"; "zh"; "es"; "id"] ->
  read isLocaleCode (write L 0 w) = None /\
  (forall ttl d, ttl <= d ->
     read isLocaleCode (elapse d (write L ttl w)) = None) /\
  (forall ttl d, ttl <= d ->
     let w' := elapse d (write L ttl w) in
     resolve w' (read isLocaleCode w') = defaultLocale w').
Proof.
  intros HL.
  assert (Hgone : forall ttl d, ttl <= d ->
            read isLocaleCode (elapse d (write L ttl w)) = None).
  { intros ttl d Hd. unfold read. simpl jar. simpl clock.
    rewrite (jar_write L ttl w HL), clock_write.
    destruct (Z.leb_spec ttl 0) as [Hle|Hgt].
    - now rewrite lookup_delete_eq.
    - rewrite lookup_insert_eq. unfold alive, preference. simpl.
      replace (clock w + d <? clock w + ttl) with false; [reflexivity|].
      symmetry. apply Z.ltb_ge. lia. }
  split; [|split].
  - unfold read. rewrite (jar_write L 0 w HL). simpl.
    now rewrite lookup_delete_eq.
  - exact Hgone.
  - intros ttl d Hd w'. subst w'. now rewrite (Hgone ttl d Hd).
Qed.

Hypothesis supported_shape :
  forall l, In l ["en"; "zh"; "es"; "id"] -> isLocaleCode l = true.

(** C5. Round trip: a supported locale written with a positive horizon is
    what [read] returns right after, and so it is after a switch. *)
Theorem write_read_roundtrip (L : string) (ttl : Z) (w : World) :
  In L ["en"; "zh"; "es"; "id"] ->
  0 < ttl ->
  read isLocaleCode (write L ttl w) = Some L /\
  read isLocaleCode (switchTo L w) = Some L.
Proof.
  intros HL Httl.
  assert (Hrt : forall t, 0 < t -> read isLocaleCode (write L t w) = Some L).
  { intros t Ht. unfold read. rewrite (jar_write L t w HL), clock_write.
    destruct (Z.leb_spec t 0) as [Hle|_]; [lia|].
    rewrite lookup_insert_eq. unfold alive, preference. simpl.
    rewrite (supported_shape L HL).
    replace (clock w <? clock w + t) with true; [reflexivity|].
    symmetry. apply Z.ltb_lt. lia. }
  split; [now apply Hrt|]. rewrite read_switchTo. apply Hrt. reflexivity.
Qed.

End Adapter.

Section Witnesses.

Lemma read_expired_absent_witness :
  read (includes ["en"; "zh"; "es"; "id"]) (write "zh" 0 initial) = None /\
  read (includes ["en"; "zh"; "es"; "id"])
       (elapse 31536000 (write "zh" 31536000 initial)) = None.
Proof.
  destruct (read_expired_absent (includes ["en"; "zh"; "es"; "id"]) "zh" initial)
    as (H0 & Hgone & _); [simpl; tauto|].
  split; [exact H0 | apply Hgone; lia].
Defined.

Lemma write_read_roundtrip_witness :
  read (includes ["en"; "zh"; "es"; "id"]) (write "es" 60 initial) = Some "es" /\
  read (includes ["en"; "zh"; "es"; "id"]) (switchTo "es" initial) = Some "es".
Proof.
  apply (write_read_roundtrip (includes ["en"; "zh"; "es"; "id"])).
  - intros l Hl. now apply includes_In.
  - simpl. tauto.
  - lia.
Defined.

End Witnesses.

(** ** The switcher as drawn *)

Section Highlight.

Lemma highlighted_keys locale w :
  map key (highlighted locale w)
  = List.filter (String.eqb locale) (locales (registry w)).
Proof.
  unfold highlighted, buttons.
  induction (locales (registry w)) as [|l ls IH]; simpl; [reflexivity|].
  destruct (String.eqb locale l); simpl; now rewrite IH.
Qed.

Lemma filter_eqb_absent x (ls : list string) :
  ~ In x ls -> List.filter (String.eqb x) ls = [].
Proof.
  induction ls as [|l ls IH]; simpl; intros Hx; [reflexivity|].
  destruct (String.eqb_spec x l) as [->|_]; [tauto|]. apply IH. tauto.
Qed.

Lemma filter_eqb_once x (ls : list string) :
  List.NoDup ls -> In x ls -> List.filter (String.eqb x) ls = [x].
Proof.
  induction 1 as [|l ls Hl Hnd IH]; simpl; intros Hx; [destruct Hx|].
  destruct (String.eqb_spec x l) as [->|Hne].
  - now rewrite filter_eqb_absent.
  - destruct Hx as [->|Hx]; [congruence | now apply IH].
Qed.

(** When the locale of the page is one of the registry and the registry has
    no locale twice, exactly one button is highlighted: the one of that
    locale. *)
Theorem highlight_current (locale : string) (w : World) :
  List.NoDup (locales (registry w)) ->
  In locale (locales (registry w)) ->
  map key (highlighted locale w) = [locale].
Proof.
  intros Hnd Hin. rewrite highlighted_keys. now apply filter_eqb_once.
Qed.

Lemma highlight_current_witness : map key (highlighted "es" initial) = ["es"].
Proof.
  apply (highlight_current "es" initial); simpl.
  - repeat constructor; simpl; intuition discriminate.
  - tauto.
Defined.

(** When the locale of the page is not in the registry, no button is
    highlighted, and every button is drawn as an outline. *)
Theorem highlight_none (locale : string) (w : World) :
  ~ In locale (locales (registry w)) ->
  highlighted locale w = [] /\
  map variant (buttons locale w)
  = map (fun _ => "outline") (locales (registry w)).
Proof.
  intros Hout. split.
  - apply (map_eq_nil key). rewrite highlighted_keys.
    now apply filter_eqb_absent.
  - unfold buttons. rewrite map_map. simpl.
    induction (locales (registry w)) as [|l ls IH]; simpl; [reflexivity|].
    simpl in Hout. destruct (String.eqb_spec locale l) as [->|_]; [tauto|].
    f_equal. apply IH. tauto.
Qed.

Lemma highlight_none_witness : highlighted "fr" initial = [].
Proof.
  apply (highlight_none "fr" initial). simpl. intuition discriminate.
Defined.

End Highlight.

(** ** The handler on any argument *)

Section AnyArgument.
Import Cookie.

Lemma registry_handleLanguageChange l w :
  registry (handleLanguageChange l w) = registry w.
Proof. apply (registry_step w (Switch l)). Qed.

(** What a switch does to the jar, whatever string it is given. *)
Lemma jar_handleLanguageChange s w :
  jar (handleLanguageChange s w)
  = if http_only (attributes (tl (split_on ";" s))) then jar w
    else <["NEXT_LOCALE" :=
             preference (trim (hd "" (split_on ";" s))) 31536000 (clock w)]>
           (jar w).
Proof.
  unfold handleLanguageChange, location_reload, set_document_cookie. simpl.
  rewrite parse_cookie_string. simpl.
  destruct (http_only _); [reflexivity|]. unfold store. simpl. reflexivity.
Qed.

(** Whatever its argument, a switch changes no cookie but NEXT_LOCALE,
    removes no cookie from the jar, and leaves the clock alone. *)
Theorem switch_frame (s : string) (w : World) :
  delete "NEXT_LOCALE" (jar (handleLanguageChange s w))
  = delete "NEXT_LOCALE" (jar w) /\
  dom (jar w) ⊆ dom (jar (handleLanguageChange s w)) /\
  clock (handleLanguageChange s w) = clock w.
Proof.
  rewrite jar_handleLanguageChange. split; [|split].
  - destruct (http_only _); [reflexivity|]. apply delete_insert_eq.
  - destruct (http_only _); [reflexivity|]. rewrite dom_insert. set_solver.
  - apply clock_switchTo.
Qed.

Lemma every_ltrim P s : every P s = true -> every P (ltrim s) = true.
Proof.
  induction s as [|a s IH]; simpl; intros Hs; [reflexivity|].
  destruct (is_ws a); [|exact Hs]. apply andb_prop in Hs as [_ Hs]. auto.
Qed.

Lemma every_rtrim P s : every P s = true -> every P (rtrim s) = true.
Proof.
  induction s as [|a s IH]; simpl; intros Hs; [reflexivity|].
  apply andb_prop in Hs as [Ha Hs]. specialize (IH Hs).
  destruct (rtrim s) as [|b r].
  - destruct (is_ws a); simpl; [reflexivity | now rewrite Ha].
  - simpl in *. now rewrite Ha, IH.
Qed.

Lemma hd_split_on_free c s :
  every (fun a => negb (Ascii.eqb a c)) (hd "" (split_on c s)) = true.
Proof.
  induction s as [|a s IH]; simpl; [reflexivity|].
  destruct (Ascii.eqb a c) eqn:E; [reflexivity|].
  rewrite (split_on_cons c s). simpl. now rewrite E, IH.
Qed.

(** An argument that ends in an injected HttpOnly attribute makes the
    browser drop the cookie: the jar stays as it was, and the page is
    reloaded all the same. *)
Theorem switch_http_only_dropped (s : string) (w : World) :
  jar (handleLanguageChange (s +:+ "; HttpOnly") w) = jar w /\
  events (handleLanguageChange (s +:+ "; HttpOnly") w)
  = (events w ++ [CookieAssigned (cookie_string (s +:+ "; HttpOnly"));
                  Reloaded])%list.
Proof.
  split; [|apply events_switchTo].
  rewrite jar_handleLanguageChange.
  change (s +:+ "; HttpOnly") with (s +:+ String ";" " HttpOnly").
  rewrite split_on_app, (split_on_cons ";" s). simpl tl.
  unfold attributes. rewrite fold_left_app. reflexivity.
Qed.

Lemma every_impl (P Q : ascii -> bool) s :
  (forall a, P a = true -> Q a = true) ->
  every P s = true -> every Q s = true.
Proof.
  intros HPQ. induction s as [|a s IH]; simpl; intros Hs; [reflexivity|].
  apply andb_prop in Hs as [Ha Hs]. now rewrite (HPQ a Ha), (IH Hs).
Qed.

Lemma octet_not_semicolon a :
  is_cookie_octet a = true -> negb (Ascii.eqb a ";") = true.
Proof.
  destruct a as [[] [] [] [] [] [] [] []]; vm_compute; congruence.
Qed.

Lemma octet_not_ws a : is_cookie_octet a = true -> is_ws a = false.
Proof.
  destruct a as [[] [] [] [] [] [] [] []]; vm_compute; congruence.
Qed.

Lemma storable_octets s : storable s = true -> every is_cookie_octet s = true.
Proof.
  unfold storable. intros H.
  apply andb_prop in H as [H _]. now apply andb_prop in H as [H _].
Qed.

(** What a switch to a storable argument leaves in the jar. *)
Lemma jar_storable s w :
  storable s = true ->
  jar (handleLanguageChange s w)
  = <["NEXT_LOCALE" := preference s 31536000 (clock w)]> (jar w).
Proof.
  intros Hs. apply storable_octets in Hs.
  rewrite jar_handleLanguageChange.
  rewrite (split_on_every is_cookie_octet ";" s eq_refl Hs). simpl.
  now rewrite (trim_every is_cookie_octet s octet_not_ws Hs).
Qed.




(** An argument with a semicolon in it is never what the jar holds after
    the switch, unless the jar held it before. *)
Theorem semicolon_never_verbatim (s : string) (w : World) :
  every (fun a => negb (Ascii.eqb a ";")) s = false ->
  persisted "NEXT_LOCALE" w <> Some s ->
  persisted "NEXT_LOCALE" (handleLanguageChange s w) <> Some s.
Proof.
  intros Hsemi Hbefore. unfold persisted in *.
  rewrite jar_handleLanguageChange.
  destruct (http_only _); [exact Hbefore|].
  rewrite lookup_insert_eq. simpl. intros Heq. injection Heq as Heq.
  assert (Hfree : every (fun a => negb (Ascii.eqb a ";")) s = true).
  { rewrite <- Heq. unfold trim. apply every_rtrim, every_ltrim.
    apply hd_split_on_free. }
  congruence.
Qed.

Lemma semicolon_never_verbatim_witness :
  persisted "NEXT_LOCALE" (handleLanguageChange "en;q=1" initial)
  <> Some "en;q=1".
Proof.
  apply (semicolon_never_verbatim "en;q=1" initial);
    [reflexivity | vm_compute; discriminate].
Defined.

(** The handler does not ask whether its argument is a locale of the
    registry: for any storable argument the jar afterwards differs from the
    jar before in the one entry NEXT_LOCALE, which holds the argument with
    path /, same-site lax and an expiry one year on. *)
Theorem switch_stores_any_plain (s : string) (w : World) :
  storable s = true ->
  jar (handleLanguageChange s w)
  = <["NEXT_LOCALE" := {| stored_value := s; stored_path := Some "/";
                          expires := Some (clock w + 31536000);
                          stored_same_site := Some Lax |}]> (jar w).
Proof. intros Hs. now rewrite (jar_storable s w Hs). Qed.

Lemma switch_stores_any_plain_witness :
  jar (handleLanguageChange "pt-BR" initial)
  = <["NEXT_LOCALE" := {| stored_value := "pt-BR"; stored_path := Some "/";
                          expires := Some (clock initial + 31536000);
                          stored_same_site := Some Lax |}]> (jar initial).
Proof.
  apply (switch_stores_any_plain "pt-BR" initial). reflexivity.
Defined.

(** Of two switches with storable arguments, in the registry or not and any
    time apart, the second wins: the jar is what the second switch alone
    would have left. *)
Theorem last_plain_write_wins (s1 s2 : string) (d : Z) (w : World) :
  storable s1 = true ->
  storable s2 = true ->
  jar (handleLanguageChange s2 (elapse d (handleLanguageChange s1 w)))
  = jar (handleLanguageChange s2 (elapse d w)) /\
  persisted "NEXT_LOCALE"
    (handleLanguageChange s2 (elapse d (handleLanguageChange s1 w)))
  = Some s2.
Proof.
  intros H1 H2. unfold persisted. rewrite !(jar_storable s2) by assumption.
  change (jar (elapse d ?x)) with (jar x).
  change (clock (elapse d ?x)) with (clock x + d).
  pose proof (clock_switchTo s1 w) as Hc. unfold switchTo in Hc.
  rewrite Hc, (jar_storable s1 w H1), insert_insert_eq, lookup_insert_eq.
  split; reflexivity.
Qed.

Lemma last_plain_write_wins_witness :
  jar (handleLanguageChange "de" (elapse 3 (handleLanguageChange "fr" initial)))
  = jar (handleLanguageChange "de" (elapse 3 initial)).
Proof.
  apply (last_plain_write_wins "fr" "de" 3 initial); reflexivity.
Defined.

End AnyArgument.

(** ** Malformed preferences *)

Section Malformed.

Variable isLocaleCode : string -> bool.


End Malformed.

Section MalformedWitness.


End MalformedWitness.


(** ** Clicking through the switcher *)

Section Clicks.

Lemma append_length a b :
  String.length (a +:+ b) = (String.length a + String.length b)%nat.
Proof. induction a as [|x a IH]; simpl; [reflexivity | now rewrite IH]. Qed.

Lemma append_cancel_r a : forall b c, a +:+ c = b +:+ c -> a = b.
Proof.
  induction a as [|x a IH]; intros [|y b] c H.
  - reflexivity.
  - apply (f_equal String.length) in H. rewrite !append_length in H.
    simpl in H. lia.
  - apply (f_equal String.length) in H. rewrite !append_length in H.
    simpl in H. lia.
  - cbn [String.append] in H. injection H as -> H. f_equal.
    now apply (IH b c).
Qed.

(** Two arguments that differ give two assignments that differ: the
    template loses nothing of its argument. *)
Theorem cookie_string_injective (s1 s2 : string) :
  cookie_string s1 = cookie_string s2 -> s1 = s2.
Proof.
  unfold cookie_string. intros H. cbn [String.append] in H.
  injection H as H.
  apply (append_cancel_r s1 s2 "; path=/; max-age=31536000; SameSite=Lax").
  exact H.
Qed.

Lemma cookie_string_injective_witness : "zh" = "zh".
Proof. apply (cookie_string_injective "zh" "zh"). reflexivity. Defined.

Lemma button_at locale w i b :
  nth_error (buttons locale w) i = Some b ->
  In (key b) (locales (registry w)) /\
  onClick b = handleLanguageChange (key b).
Proof.
  intros Hb. apply nth_error_In in Hb. unfold buttons in Hb.
  apply in_map_iff in Hb as (l & <- & Hl). split; [exact Hl | reflexivity].
Qed.

(** With the registry of the sources, a click on any button of the
    switcher leaves in the jar the locale that button is keyed by, which is
    a locale of the registry. *)
Theorem click_persists_key (locale : string) (i : nat) (b : Button)
    (w : World) :
  registry w = routing ->
  nth_error (buttons locale w) i = Some b ->
  In (key b) ["en"; "zh"; "es"; "id"] /\
  persisted "NEXT_LOCALE" (click locale i w) = Some (key b).
Proof.
  intros Hreg Hb. destruct (button_at locale w i b Hb) as [Hin Hclick].
  rewrite Hreg in Hin. split; [exact Hin|].
  unfold click, persisted. rewrite Hb, Hclick.
  pose proof (jar_switchTo (key b) w Hin) as Hj. unfold switchTo in Hj.
  rewrite Hj. now rewrite lookup_insert_eq.
Qed.

Lemma click_persists_key_witness :
  persisted "NEXT_LOCALE" (click "en" 2 initial) = Some "es".
Proof.
  apply (click_persists_key "en" 2
           {| key := "es"; onClick := handleLanguageChange "es";
              variant := "outline"; label := "languages.es" |} initial);
    reflexivity.
Defined.

Lemma gesture_invariant w g :
  registry w = routing ->
  match persisted "NEXT_LOCALE" w with
  | Some l => In l ["en"; "zh"; "es"; "id"]
  | None => True
  end ->
  registry (gesture w g) = routing /\
  match persisted "NEXT_LOCALE" (gesture w g) with
  | Some l => In l ["en"; "zh"; "es"; "id"]
  | None => True
  end.
Proof.
  intros Hreg Hp. destruct g as [locale i | d]; simpl; [|now split].
  unfold click. destruct (nth_error (buttons locale w) i) as [b|] eqn:Hb;
    [|now split].
  destruct (button_at locale w i b Hb) as [Hin ->]. rewrite Hreg in Hin.
  split; [now rewrite registry_handleLanguageChange|].
  unfold persisted.
  pose proof (jar_switchTo (key b) w Hin) as Hj. unfold switchTo in Hj.
  rewrite Hj, lookup_insert_eq. exact Hin.
Qed.

(** Whatever a visitor clicks and however long they wait, starting from the
    page as first loaded, the jar never holds anything but a locale of the
    registry under NEXT_LOCALE. *)
Theorem clicks_keep_supported (gs : list Gesture) :
  match persisted "NEXT_LOCALE" (play gs initial) with
  | Some l => In l ["en"; "zh"; "es"; "id"]
  | None => True
  end.
Proof.
  assert (H : forall w,
            registry w = routing ->
            match persisted "NEXT_LOCALE" w with
            | Some l => In l ["en"; "zh"; "es"; "id"]
            | None => True
            end ->
            match persisted "NEXT_LOCALE" (play gs w) with
            | Some l => In l ["en"; "zh"; "es"; "id"]
            | None => True
            end).
  { unfold play. induction gs as [|g gs IH]; intros w Hreg Hp; simpl;
      [exact Hp|].
    destruct (gesture_invariant w g Hreg Hp) as [Hreg' Hp']. now apply IH. }
  apply H; [reflexivity | exact I].
Qed.

Lemma gesture_events w g :
  registry w = routing ->
  registry (gesture w g) = routing /\
  exists ls, Forall (fun l => In l ["en"; "zh"; "es"; "id"]) ls /\
             events (gesture w g)
             = (events w ++ flat_map switch_effects ls)%list.
Proof.
  intros Hreg. destruct g as [locale i | d]; simpl.
  - unfold click. destruct (nth_error (buttons locale w) i) as [b|] eqn:Hb.
    + destruct (button_at locale w i b Hb) as [Hin ->]. rewrite Hreg in Hin.
      split; [now rewrite registry_handleLanguageChange|].
      exists [key b]. split; [now constructor|].
      simpl. apply events_switchTo.
    + split; [exact Hreg|]. exists []. split; [constructor|].
      simpl. now rewrite app_nil_r.
  - split; [exact Hreg|]. exists []. split; [constructor|].
    simpl. now rewrite app_nil_r.
Qed.

(** The effects of any session at the switcher are a run of switches to
    locales of the registry, each one a cookie assignment with its reload
    right behind: no reload without its write, no write of another
    locale. *)
Theorem clicks_trace (gs : list Gesture) :
  exists ls,
    Forall (fun l => In l ["en"; "zh"; "es"; "id"]) ls /\
    events (play gs initial) = flat_map switch_effects ls.
Proof.
  assert (H : forall w, registry w = routing ->
            exists ls, Forall (fun l => In l ["en"; "zh"; "es"; "id"]) ls /\
                       events (play gs w)
                       = (events w ++ flat_map switch_effects ls)%list).
  { unfold play. induction gs as [|g gs IH]; intros w Hreg; simpl.
    - exists []. split; [constructor | simpl; now rewrite app_nil_r].
    - destruct (gesture_events w g Hreg) as (Hreg' & l1 & Hl1 & E1).
      destruct (IH _ Hreg') as (l2 & Hl2 & E2).
      exists (l1 ++ l2)%list. split; [now apply Forall_app|].
      rewrite E2, E1, flat_map_app, app_assoc. reflexivity. }
  destruct (H initial eq_refl) as (ls & Hls & E). exists ls. split; assumption.
Qed.

(** After a switch to a supported locale the preference counts for one year
    and no longer: [d] seconds on it is alive exactly when [d] is below
    31536000. *)
Theorem switch_lifetime (L : string) (d : Z) (w : World) :
  In L ["en"; "zh"; "es"; "id"] ->
  let w' := elapse d (handleLanguageChange L w) in
  (alive (clock w') <$> jar w' !! "NEXT_LOCALE") = Some (d <? 31536000).
Proof.
  intros HL w'. subst w'.
  change (jar (elapse d ?x)) with (jar x).
  change (clock (elapse d ?x)) with (clock x + d).
  pose proof (jar_switchTo L w HL) as Hj. unfold switchTo in Hj.
  pose proof (clock_switchTo L w) as Hc. unfold switchTo in Hc.
  rewrite Hj, lookup_insert_eq, Hc.
  unfold alive, preference. simpl. f_equal.
  destruct (Z.ltb_spec d 31536000); [apply Z.ltb_lt | apply Z.ltb_ge]; lia.
Qed.

Lemma switch_lifetime_witness :
  (alive (clock (elapse 31535999 (handleLanguageChange "id" initial)))
     <$> jar (elapse 31535999 (handleLanguageChange "id" initial))
         !! "NEXT_LOCALE") = Some true.
Proof.
  apply (switch_lifetime "id" 31535999 initial). simpl. tauto.
Defined.

End Clicks.
